(** * Inferno Guide API: the circle catalog and the journey builder

    A shallow embedding of [main.py].  Python integers are [Z], Python
    strings are [string] (the bytes of their UTF-8 encoding), the two
    lookup dictionaries are [gmap]s, the [set] of circle identifiers is a
    [gset Z], and the two [for] loops of [build_journey] are written as
    recursive functions that thread the list they append to. *)

From Stdlib Require Import Ascii.
From stdpp Require Import gmap strings list sorting fin_maps.

Local Open Scope string_scope.
Local Open Scope list_scope.
Local Open Scope Z_scope.

(** ** Data model *)

Module Circle.
Record t := mk {
  id : Z;
  name : string;
  sin : string;
  guardians : list string;
  punishment : string;
  motto : string;
  color : string;
  quote : option string
}.
End Circle.

Module JourneyRequest.
Record t := mk {
  mood : string;
  interest : string;
  intensity : Z
}.
End JourneyRequest.

Module JourneyStop.
Record t := mk {
  circle_id : Z;
  title : string;
  takeaway : string
}.
End JourneyStop.

Module JourneyResponse.
Record t := mk {
  title : string;
  path : list JourneyStop.t;
  note : string
}.
End JourneyResponse.

(** ** The catalog *)

Definition CIRCLES : list Circle.t := [
  Circle.mk 1 "Limbo" "The Unbaptized & Virtuous Pagans"
    ["Minos (on threshold)"; "Poets"]
    "Eternal longing without torment"
    "Where hope is a horizon you can see but never reach."
    "#a7f3d0"
    (Some "We are those who without hope live in desire.");
  Circle.mk 2 "Lust" "Swept by passion"
    ["Minos"; "Francesca & Paolo"]
    "Whirled in an endless storm"
    "To be carried by every wind is to never arrive."
    "#fda4af"
    (Some "Love, which quickly kindles in the gentle heart…");
  Circle.mk 3 "Gluttony" "Excess and indulgence"
    ["Cerberus"]
    "Battered by icy rain and filth"
    "What consumes you is not what you eat, but what you cannot refuse."
    "#fde68a"
    None;
  Circle.mk 4 "Greed" "Hoarders & Wasters"
    ["Plutus"]
    "Push great weights against each other forever"
    "The weight of wanting more is heavier than gold."
    "#fbbf24"
    None;
  Circle.mk 5 "Wrath" "Wrathful & Sullen"
    ["Phlegyas"]
    "Fight on the surface; drown below"
    "Anger burns bright; resentment smolders cold."
    "#f87171"
    None;
  Circle.mk 6 "Heresy" "Denial of immortality"
    ["Furies"; "Medusa"]
    "Burn in flaming tombs"
    "To deny forever is to be sealed within your own certainty."
    "#fb7185"
    None;
  Circle.mk 7 "Violence" "Against others, self, God & nature"
    ["Minotaur"; "Centaurs"]
    "Boiling blood, forest of suicides, burning sand"
    "Violence returns to the hand that wields it."
    "#ef4444"
    None;
  Circle.mk 8 "Fraud" "Ten Malebolge of deception"
    ["Geryon"]
    "Ten ditches for ten kinds of lies"
    "Masks grow heavy when worn forever."
    "#f43f5e"
    None;
  Circle.mk 9 "Treachery" "Betrayers frozen in Cocytus"
    ["Lucifer"]
    "Entombed in ice at various depths"
    "The coldest places are reserved for those who betray trust."
    "#60a5fa"
    None
].

(** ** Python primitives used by [build_journey] *)

(** [str.lower()] on the UTF-8 bytes of a string: [A-Z] go to [a-z] and
    every other byte stays.  On ASCII text this is [str.lower()] exactly.
    On other text [str.lower()] also changes non-ASCII letters; the result
    here is only ever used as a dictionary key, and every key of the two
    tables is made of the letters [a-z] without [k], so a string with a
    non-ASCII character lower-cases to a key neither here nor in Python.
    The properties below that range over all moods and interests go
    through [dict_get_cases], which holds for any key. *)
Definition lower_char (a : ascii) : ascii :=
  let n := N_of_ascii a in
  if ((65 <=? n) && (n <=? 90))%N then ascii_of_N (n + 32) else a.

Fixpoint lower (s : string) : string :=
  match s with
  | EmptyString => EmptyString
  | String a s' => String (lower_char a) (lower s')
  end.

(** [len(l)] as a Python integer. *)
Definition len {A} (l : list A) : Z := Z.of_nat (length l).

(** [sorted(l)] on integers: ascending, stable. *)
Definition sorted (l : list Z) : list Z := merge_sort Z.le l.

(** [l[:n]].  A negative bound counts from the end of the list. *)
Definition slice_to {A} (l : list A) (n : Z) : list A :=
  if n <? 0 then take (Z.to_nat (len l + n)) l else take (Z.to_nat n) l.

(** [d.get(k, dflt)]. *)
Definition dict_get {V} (d : gmap string V) (k : string) (dflt : V) : V :=
  default dflt (d !! k).

(** ** The journey builder *)

Definition mood_entries : list (string * list Z) := [
  ("curious", [1; 2; 3; 4]);
  ("somber", [6; 9]);
  ("reflective", [1; 5; 7]);
  ("adventurous", [2; 7; 8])
].

Definition interest_entries : list (string * list Z) := [
  ("literature", [1; 2; 5]);
  ("psychology", [2; 3; 5; 7]);
  ("myth", [4; 6; 7; 8]);
  ("morality", [1; 4; 9]);
  ("aesthetics", [2; 6; 9])
].

Definition mood_map : gmap string (list Z) := list_to_map mood_entries.
Definition interest_map : gmap string (list Z) := list_to_map interest_entries.

Definition takeaway_entries : list (Z * string) := [
  (1, "Hope without action is a gentle prison.");
  (2, "Desire untethered becomes a storm.");
  (3, "Comfort can drown purpose.");
  (4, "The pursuit of more can empty the soul.");
  (5, "Anger can power you or poison you.");
  (6, "Certainty can calcify curiosity.");
  (7, "Violence echoes back to the source.");
  (8, "Deception distorts the self first.");
  (9, "Trust is a sacred architecture.")
].

Definition takeaway_map : gmap Z string := list_to_map takeaway_entries.

(** The padding order of the [for c in [6, 7, 8, 9, 5, 4, 3, 2, 1]] loop. *)
Definition PAD_ORDER : list Z := [6; 7; 8; 9; 5; 4; 3; 2; 1].

(** [base = set(mood_map.get(...)); base.update(interest_map.get(...))]. *)
Definition base_of (req : JourneyRequest.t) : gset Z :=
  list_to_set (dict_get mood_map (lower (JourneyRequest.mood req)) [1; 2; 3])
  ∪ list_to_set (dict_get interest_map (lower (JourneyRequest.interest req)) [4; 5]).

(** [length = max(3, min(7, 2 + req.intensity // 2))]. *)
Definition length_of (req : JourneyRequest.t) : Z :=
  Z.max 3 (Z.min 7 (2 + JourneyRequest.intensity req / 2)).

(** The padding loop: [cs] is what is left of the priority list, [ordered]
    the list appended to. *)
Fixpoint pad (length : Z) (ordered : list Z) (cs : list Z) : list Z :=
  match cs with
  | [] => ordered
  | c :: cs' =>
      if len ordered >=? length then ordered
      else if bool_decide (c ∈ ordered) then pad length ordered cs'
      else pad length (ordered ++ [c]) cs'
  end.

(** [ordered] after the [if len(ordered) < length:] block, from the list
    [list(base)] that the set was turned into. *)
Definition ordered_from (base_list : list Z) (length : Z) : list Z :=
  let ordered := slice_to (sorted base_list) length in
  if len ordered <? length then pad length ordered PAD_ORDER else ordered.

(** [next((c for c in CIRCLES if c.id == cid), None)]. *)
Definition find_circle (catalog : list Circle.t) (cid : Z) : option Circle.t :=
  List.find (λ c, Circle.id c =? cid) catalog.

(** The [for cid in ordered] loop; [stops] is the list appended to. *)
Fixpoint stops_loop (catalog : list Circle.t) (ordered : list Z)
    (stops : list JourneyStop.t) : list JourneyStop.t :=
  match ordered with
  | [] => stops
  | cid :: rest =>
      match find_circle catalog cid with
      | None => stops_loop catalog rest stops
      | Some circle =>
          let title := Circle.name circle +:+ ": " +:+ Circle.sin circle in
          let takeaway :=
            default (Circle.motto circle) (takeaway_map !! cid) in
          stops_loop catalog rest
            (stops ++ [JourneyStop.mk cid title takeaway])
      end
  end.

Definition NOTE : string :=
  "Your path is a reflection, not a sentence. Carry the insight, not the weight.".

(** [build_journey] against a given value of the global [CIRCLES]. *)
Definition build_journey_in (catalog : list Circle.t)
    (req : JourneyRequest.t) : JourneyResponse.t :=
  let ordered := ordered_from (elements (base_of req)) (length_of req) in
  let stops := stops_loop catalog ordered [] in
  JourneyResponse.mk "A Personal Descent" stops NOTE.

Definition build_journey (req : JourneyRequest.t) : JourneyResponse.t :=
  build_journey_in CIRCLES req.

(** ** Request validation

    [JourneyRequest] declares [mood: str] and [interest: str] with
    [Field(...)] (required) and [intensity: int] with
    [Field(5, ge=1, le=10)].  The body of a request arrives as JSON.
    Which JSON values the validation library takes for a [str] or an [int]
    is not written in [main.py]; a field is therefore modelled as that
    step leaves it: absent, given with a value of the declared type, or
    ill-typed (a list sent as [mood], [null], a word sent as [intensity]).
    A body that is no JSON object at all (no body, a number, a list) has
    no field.  Validation collects one error per violated declaration and
    builds the request only when there is none. *)

Inductive Sent (A : Type) :=
  | Absent
  | Given (v : A)
  | IllTyped.

Arguments Absent {A}.
Arguments Given {A} v.
Arguments IllTyped {A}.

Module JourneyBody.
Record t := mk {
  mood : Sent string;
  interest : Sent string;
  intensity : Sent Z
}.
End JourneyBody.

Inductive RequestBody :=
  | NoObject
  | Object (fields : JourneyBody.t).

Inductive FieldError :=
  | NotAnObject
  | Missing (field : string)
  | WrongType (field : string)
  | GreaterThanEqual (field : string) (bound : Z)
  | LessThanEqual (field : string) (bound : Z).

Definition required {A} (field : string) (v : Sent A) : list FieldError :=
  match v with
  | Absent => [Missing field]
  | IllTyped => [WrongType field]
  | Given _ => []
  end.

(** [int] with [ge=1, le=10]; the default is taken as it is when the field
    is absent. *)
Definition check_intensity (v : Sent Z) : list FieldError :=
  match v with
  | Absent => []
  | IllTyped => [WrongType "intensity"]
  | Given n =>
      (if 1 <=? n then [] else [GreaterThanEqual "intensity" 1])
      ++ (if n <=? 10 then [] else [LessThanEqual "intensity" 10])
  end.

Definition validate (body : RequestBody)
    : list FieldError + JourneyRequest.t :=
  match body with
  | NoObject => inl [NotAnObject]
  | Object fields =>
      let errors :=
        required "mood" (JourneyBody.mood fields)
        ++ required "interest" (JourneyBody.interest fields)
        ++ check_intensity (JourneyBody.intensity fields) in
      match JourneyBody.mood fields, JourneyBody.interest fields, errors with
      | Given m, Given i, [] =>
          inr (JourneyRequest.mk m i
                 (match JourneyBody.intensity fields with
                  | Given n => n
                  | _ => 5
                  end))
      | _, _, _ => inl errors
      end
  end.

(** ** The application: module globals and route handlers

    [CIRCLES] is the only module-level data the handlers touch.  Each
    handler takes the globals and returns them with its reply. *)

Record Globals := { circles : list Circle.t }.

Definition startup : Globals := {| circles := CIRCLES |}.

Inductive Call :=
  | GetRoot
  | GetHello
  | GetCircles
  | PostJourney (body : RequestBody).

Inductive Reply :=
  | Message (message : string)
  | CircleList (l : list Circle.t)
  | Journey (r : JourneyResponse.t)
  | Unprocessable (errors : list FieldError).

Definition read_root (g : Globals) : Globals * Reply :=
  (g, Message "Inferno Guide API ready").

Definition hello (g : Globals) : Globals * Reply :=
  (g, Message "Welcome to the Inferno").

Definition get_circles (g : Globals) : Globals * Reply :=
  (g, CircleList (circles g)).

Definition post_journey (g : Globals) (body : RequestBody)
    : Globals * Reply :=
  match validate body with
  | inl errors => (g, Unprocessable errors)
  | inr req => (g, Journey (build_journey_in (circles g) req))
  end.

Definition handle (g : Globals) (c : Call) : Globals * Reply :=
  match c with
  | GetRoot => read_root g
  | GetHello => hello g
  | GetCircles => get_circles g
  | PostJourney body => post_journey g body
  end.

(** The globals after serving a sequence of calls. *)
Definition serve (g : Globals) (calls : list Call) : Globals :=
  foldl (λ g c, (handle g c).1) g calls.

(** ** The diagnostic endpoint [/test]

    [test_database] reads three things from outside: what
    [from database import db] does, what the imported [db] object does
    when its [name] attribute is read and its [list_collection_names]
    method is called, and the process environment.  They are gathered in a
    [World].  An exception is seen by the two [except] clauses only through
    its class ([ImportError] or not) and through [str(e)]; the messages
    are cut with [str(e)[:50]], that is after 50 characters.  The value of
    [db.name] and the collection names are taken to be strings, and
    reading [name] twice to give the same outcome. *)

Record Raised := { is_import_error : bool; message : string }.

(** Reading an attribute: absent ([hasattr] is false), raising something
    other than [AttributeError] (which [hasattr] lets through), or a
    value. *)
Inductive Attr :=
  | NoAttribute
  | AttrRaises (e : Raised)
  | AttrValue (v : string).

Module Db.
Record t := mk {
  name : Attr;
  list_collection_names : Raised + list string
}.
End Db.

Record World := {
  import_db : Raised + option Db.t;
  environ : gmap string string
}.

Module TestResponse.
Record t := mk {
  backend : string;
  database : string;
  database_url : option string;
  database_name : option string;
  connection_status : string;
  collections : list string
}.
End TestResponse.

(** [response[key] = value], one function per key. *)
Definition set_database (v : string) (r : TestResponse.t) : TestResponse.t :=
  TestResponse.mk (TestResponse.backend r) v (TestResponse.database_url r)
    (TestResponse.database_name r) (TestResponse.connection_status r)
    (TestResponse.collections r).

Definition set_database_url (v : option string) (r : TestResponse.t)
    : TestResponse.t :=
  TestResponse.mk (TestResponse.backend r) (TestResponse.database r) v
    (TestResponse.database_name r) (TestResponse.connection_status r)
    (TestResponse.collections r).

Definition set_database_name (v : option string) (r : TestResponse.t)
    : TestResponse.t :=
  TestResponse.mk (TestResponse.backend r) (TestResponse.database r)
    (TestResponse.database_url r) v (TestResponse.connection_status r)
    (TestResponse.collections r).

Definition set_connection_status (v : string) (r : TestResponse.t)
    : TestResponse.t :=
  TestResponse.mk (TestResponse.backend r) (TestResponse.database r)
    (TestResponse.database_url r) (TestResponse.database_name r) v
    (TestResponse.collections r).

Definition set_collections (v : list string) (r : TestResponse.t)
    : TestResponse.t :=
  TestResponse.mk (TestResponse.backend r) (TestResponse.database r)
    (TestResponse.database_url r) (TestResponse.database_name r)
    (TestResponse.connection_status r) v.

(** A byte that continues a multi-byte character of UTF-8 text. *)
Definition is_continuation (a : ascii) : bool :=
  let b := N_of_ascii a in ((128 <=? b) && (b <? 192))%N.

(** [s[:n]] on a string, for a bound that is not negative: the first [n]
    characters.  A character is its first byte and the continuation bytes
    that follow it. *)
Fixpoint str_slice_to (s : string) (n : nat) : string :=
  match s with
  | EmptyString => EmptyString
  | String a s' =>
      if is_continuation a then String a (str_slice_to s' n)
      else
        match n with
        | O => EmptyString
        | S n' => String a (str_slice_to s' n')
        end
  end.

(** [os.getenv(key)]. *)
Definition getenv (w : World) (key : string) : option string :=
  environ w !! key.

(** Truth value of what [os.getenv] returns: [None] and the empty string
    are false. *)
Definition truthy (v : option string) : bool :=
  match v with
  | None => false
  | Some s => negb (bool_decide (s = EmptyString))
  end.

(** The inner [try] of [test_database], with its [except Exception]. *)
Definition probe_collections (db : Db.t) (response : TestResponse.t)
    : TestResponse.t :=
  match Db.list_collection_names db with
  | inr collections =>
      set_database "✅ Connected & Working"
        (set_collections (take 10 collections) response)
  | inl e =>
      set_database
        ("⚠️  Connected but Error: " +:+ str_slice_to (message e) 50)
        response
  end.

(** The body of the outer [try]: the response as the body left it, and the
    exception that ended the body, if any. *)
Definition probe_database (w : World) (response : TestResponse.t)
    : TestResponse.t * option Raised :=
  match import_db w with
  | inl e => (response, Some e)
  | inr None =>
      (set_database "⚠️  Available but not initialized" response, None)
  | inr (Some db) =>
      let response :=
        set_database_url (Some "✅ Configured")
          (set_database "✅ Available" response) in
      match Db.name db with
      | AttrRaises e => (response, Some e)
      | NoAttribute =>
          (probe_collections db
             (set_connection_status "Connected"
                (set_database_name (Some "✅ Connected") response)), None)
      | AttrValue v =>
          (probe_collections db
             (set_connection_status "Connected"
                (set_database_name (Some v) response)), None)
      end
  end.

Definition test_database (w : World) : TestResponse.t :=
  let response :=
    TestResponse.mk "✅ Running" "❌ Not Available" None None
      "Not Connected" [] in
  let response :=
    match probe_database w response with
    | (response, None) => response
    | (response, Some e) =>
        if is_import_error e then
          set_database
            "❌ Database module not found (run enable-database first)"
            response
        else
          set_database ("❌ Error: " +:+ str_slice_to (message e) 50)
            response
    end in
  let response :=
    set_database_url
      (Some (if truthy (getenv w "DATABASE_URL") then "✅ Set"
             else "❌ Not Set")) response in
  set_database_name
    (Some (if truthy (getenv w "DATABASE_NAME") then "✅ Set"
           else "❌ Not Set")) response.

(** ** Vocabulary of the specification *)

(** [clamp(x, lo, hi)] as the specification uses it. *)
Definition clamp (x lo hi : Z) : Z :=
  if x <? lo then lo else if hi <? x then hi else x.

Definition known_moods : list string :=
  ["curious"; "somber"; "reflective"; "adventurous"].

Definition known_interests : list string :=
  ["literature"; "psychology"; "myth"; "morality"; "aesthetics"].

(** The identifiers of [priority] that are not in [present], in the order
    of [priority]. *)
Definition missing_from (priority present : list Z) : list Z :=
  filter (λ c, c ∉ present) priority.




(** Text made of ASCII characters only ([str.isascii()]); on such text
    [lower] is [str.lower()] exactly. *)
Fixpoint isascii (s : string) : bool :=
  match s with
  | EmptyString => true
  | String a s' => (N_of_ascii a <? 128)%N && isascii s'
  end.

(** A request that passed validation. *)
Definition valid (req : JourneyRequest.t) : Prop :=
  1 ≤ JourneyRequest.intensity req ≤ 10.

(** The sorted union of the mood and interest identifiers of a request. *)
Definition sorted_union (req : JourneyRequest.t) : list Z :=
  sorted (elements (base_of req)).

(** The final [ordered] list of [build_journey]. *)
Definition ordered_of (req : JourneyRequest.t) : list Z :=
  ordered_from (elements (base_of req)) (length_of req).

(** The circle identifiers of the stops of a response, in order. *)
Definition stop_ids (r : JourneyResponse.t) : list Z :=
  JourneyStop.circle_id <$> JourneyResponse.path r.

(** An identifier that [find_circle] finds in the catalog. *)
Definition resolves (catalog : list Circle.t) (cid : Z) : Prop :=
  is_Some (find_circle catalog cid).

(** The identifiers 1, ..., 9. *)
Definition in_catalog_range (c : Z) : Prop := 1 ≤ c ≤ 9.

(** One iteration of the padding loop body: the [break] test, then the
    membership test. *)
Ltac pad_step o c n :=
  simpl; rewrite Z.geb_leb;
  destruct (Z.leb_spec n (len o));
  [ | destruct (bool_decide_reflect (c ∈ o)) ].

(** Every way the import, the [name] attribute and
    [list_collection_names] can turn out in [test_database]. *)
Ltac test_database_cases w :=
  unfold test_database, probe_database, probe_collections;
  destruct (import_db w)
    as [[[] msg] | [[[| [[] msg] | v] [[[] msg'] | names]] | ]];
  simpl.



(** * Properties *)

(** ** Python primitives *)

Lemma len_app {A} (l k : list A) : len (l ++ k) = len l + len k.
Proof. unfold len. rewrite length_app. lia. Qed.

Lemma len_nonneg {A} (l : list A) : 0 ≤ len l.
Proof. unfold len. lia. Qed.

Lemma slice_to_take {A} (l : list A) n :
  0 ≤ n → slice_to l n = take (Z.to_nat n) l.
Proof. intros Hn. unfold slice_to. case_match; [lia | done]. Qed.

Lemma slice_to_all {A} (l : list A) n : len l ≤ n → slice_to l n = l.
Proof.
  intros Hn. pose proof (len_nonneg l). rewrite slice_to_take by lia.
  apply take_ge. unfold len in *. lia.
Qed.

Lemma dict_get_cases {V} (entries : list (string * V)) k d :
  dict_get (list_to_map entries) k d ∈ d :: entries.*2.
Proof.
  unfold dict_get. destruct (list_to_map entries !! k) as [v|] eqn:E; simpl.
  - right. apply elem_of_list_to_map_2 in E.
    apply list_elem_of_fmap. by exists (k, v).
  - left.
Qed.

Lemma dict_get_unknown {V} (entries : list (string * V)) k d :
  k ∉ entries.*1 → dict_get (list_to_map entries) k d = d.
Proof.
  intros Hk. unfold dict_get.
  by rewrite (not_elem_of_list_to_map_1 _ _ Hk).
Qed.

Lemma sorted_perm l : sorted l ≡ₚ l.
Proof. apply merge_sort_Permutation. Qed.

Lemma sorted_order_irrelevant l1 l2 : l1 ≡ₚ l2 → sorted l1 = sorted l2.
Proof.
  intros Hp. apply (Sorted_unique Z.le).
  - apply Sorted_merge_sort, _.
  - apply Sorted_merge_sort, _.
  - by rewrite !sorted_perm.
Qed.

(** ** The padding loop *)

Section pad_loop.
Variable n : Z.

Lemma pad_extends o cs : ∃ k, pad n o cs = o ++ k.
Proof.
  revert o. induction cs as [|c cs IH]; intros o.
  - exists []. by rewrite app_nil_r.
  - pad_step o c n.
    + exists []. by rewrite app_nil_r.
    + apply IH.
    + destruct (IH (o ++ [c])) as [k ->]. exists (c :: k).
      by rewrite <-app_assoc.
Qed.

Lemma pad_keeps o cs x : x ∈ o → x ∈ pad n o cs.
Proof.
  intros Hx. destruct (pad_extends o cs) as [k ->]. set_solver.
Qed.

Lemma pad_elem o cs x : x ∈ pad n o cs → x ∈ o ∨ x ∈ cs.
Proof.
  revert o. induction cs as [|c cs IH]; intros o.
  - by left.
  - pad_step o c n; intros Hx.
    + by left.
    + destruct (IH _ Hx); [by left | right; by right].
    + destruct (IH _ Hx) as [Ho | Hcs]; [ | right; by right].
      apply elem_of_app in Ho as [Ho | Hc]; [by left | ].
      apply list_elem_of_singleton in Hc as ->. right; left.
Qed.

Lemma pad_NoDup o cs : NoDup o → NoDup (pad n o cs).
Proof.
  revert o. induction cs as [|c cs IH]; intros o Ho.
  - done.
  - pad_step o c n; [done | by apply IH | ].
    apply IH, NoDup_app. split_and!; [done | | apply NoDup_singleton].
    intros x Hx Hc. apply list_elem_of_singleton in Hc as ->. done.
Qed.

Lemma pad_len_le o cs : len o ≤ n → len (pad n o cs) ≤ n.
Proof.
  revert o. induction cs as [|c cs IH]; intros o Ho.
  - done.
  - pad_step o c n; [done | by apply IH | ].
    apply IH. rewrite len_app. unfold len in *. simpl. lia.
Qed.

(** The loop ends by [break], with the target reached, or by running
    through the whole priority list, and then all of it is present. *)
Lemma pad_exit o cs : n ≤ len (pad n o cs) ∨ ∀ c, c ∈ cs → c ∈ pad n o cs.
Proof.
  revert o. induction cs as [|c cs IH]; intros o.
  - right. intros c Hc. by apply elem_of_nil in Hc.
  - pad_step o c n.
    + by left.
    + destruct (IH o) as [Hn | Hall]; [by left | right].
      intros c' Hc'. apply elem_of_cons in Hc' as [-> | Hc'].
      * by apply pad_keeps.
      * by apply Hall.
    + destruct (IH (o ++ [c])) as [Hn | Hall]; [by left | right].
      intros c' Hc'. apply elem_of_cons in Hc' as [-> | Hc'].
      * apply pad_keeps. set_solver.
      * by apply Hall.
Qed.

Lemma missing_from_snoc cs o c :
  c ∉ cs → missing_from cs (o ++ [c]) = missing_from cs o.
Proof.
  unfold missing_from. induction cs as [|x cs IH]; intros Hc; [done | ].
  apply not_elem_of_cons in Hc as [Hxc Hc].
  destruct (decide (x ∈ o)) as [Ho | Ho].
  - rewrite filter_cons_False by (intros Hn; apply Hn; set_solver).
    rewrite filter_cons_False by (intros Hn; by apply Hn).
    by apply IH.
  - rewrite filter_cons_True
      by (rewrite elem_of_app, list_elem_of_singleton; intros [?|?]; done).
    rewrite filter_cons_True by done.
    by rewrite IH.
Qed.

(** What the loop computes, when the priority list has no repetition:
    the missing identifiers in priority order, cut at the target. *)
Lemma pad_spec o cs :
  NoDup cs →
  pad n o cs = o ++ take (Z.to_nat (n - len o)) (missing_from cs o).
Proof.
  revert o. induction cs as [|c cs IH]; intros o Hcs.
  - unfold missing_from. by rewrite filter_nil, take_nil, app_nil_r.
  - apply NoDup_cons in Hcs as [Hc Hcs]. pad_step o c n.
    + replace (Z.to_nat (n - len o)) with 0%nat by lia.
      by rewrite take_0, app_nil_r.
    + rewrite IH by done. unfold missing_from.
      by rewrite filter_cons_False by (intros Hn; by apply Hn).
    + rewrite IH by done. rewrite missing_from_snoc by done.
      unfold missing_from at 2. rewrite filter_cons_True by done.
      rewrite len_app. change (len [c]) with 1.
      replace (Z.to_nat (n - len o)) with (S (Z.to_nat (n - (len o + 1))))
        by lia.
      simpl. by rewrite <-app_assoc.
Qed.
End pad_loop.

(** ** Truncation and padding together *)

Lemma slice_to_sublist {A} (l : list A) n : slice_to l n `sublist_of` l.
Proof. unfold slice_to. case_match; apply sublist_take. Qed.

Lemma slice_to_len_le {A} (l : list A) n : 0 ≤ n → len (slice_to l n) ≤ n.
Proof.
  intros Hn. rewrite slice_to_take by done. unfold len.
  rewrite length_take. lia.
Qed.

Lemma ordered_from_order_irrelevant l1 l2 n :
  l1 ≡ₚ l2 → ordered_from l1 n = ordered_from l2 n.
Proof.
  intros Hp. unfold ordered_from. by rewrite (sorted_order_irrelevant l1 l2).
Qed.

Lemma ordered_from_NoDup l n : NoDup l → NoDup (ordered_from l n).
Proof.
  intros Hl. unfold ordered_from.
  assert (NoDup (slice_to (sorted l) n)) as Hs.
  { eapply sublist_NoDup; [ | apply slice_to_sublist]. by rewrite sorted_perm. }
  case_match; [by apply pad_NoDup | done].
Qed.

Lemma ordered_from_elem l n x :
  x ∈ ordered_from l n → x ∈ l ∨ x ∈ PAD_ORDER.
Proof.
  unfold ordered_from.
  assert (∀ y, y ∈ slice_to (sorted l) n → y ∈ l) as Hs.
  { intros y Hy. rewrite <-(sorted_perm l).
    eapply elem_of_sublist; [done | apply slice_to_sublist]. }
  case_match; intros Hx.
  - apply pad_elem in Hx as [Hx | Hx]; [left; by apply Hs | by right].
  - left. by apply Hs.
Qed.

Lemma PAD_ORDER_NoDup : NoDup PAD_ORDER.
Proof. compute_done. Qed.

(** Nine identifiers are on offer, so any target up to nine is met. *)
Lemma ordered_from_len l n : 0 ≤ n ≤ 9 → len (ordered_from l n) = n.
Proof.
  intros Hn. unfold ordered_from.
  pose proof (slice_to_len_le (sorted l) n (proj1 Hn)) as Hle.
  destruct (Z.ltb_spec (len (slice_to (sorted l) n)) n) as [Hlt | Hge];
    [ | lia].
  pose proof (pad_len_le n _ PAD_ORDER Hle) as Hup.
  destruct (pad_exit n (slice_to (sorted l) n) PAD_ORDER) as [Hlo | Hall];
    [lia | ].
  apply (NoDup_submseteq _ _ PAD_ORDER_NoDup), submseteq_length in Hall.
  change (length PAD_ORDER) with 9%nat in Hall. unfold len in *. lia.
Qed.

Lemma ordered_from_short l n :
  len l < n →
  ordered_from l n
  = sorted l
    ++ take (Z.to_nat (n - len l)) (missing_from PAD_ORDER (sorted l)).
Proof.
  intros Hlt. unfold ordered_from.
  assert (len (sorted l) = len l) as Hlen.
  { unfold len. by rewrite sorted_perm. }
  rewrite slice_to_all by lia. rewrite Hlen.
  destruct (Z.ltb_spec (len l) n); [ | lia].
  rewrite pad_spec by apply PAD_ORDER_NoDup. by rewrite Hlen.
Qed.

Lemma ordered_from_enough l n :
  0 ≤ n ≤ len l → ordered_from l n = take (Z.to_nat n) (sorted l).
Proof.
  intros Hn. unfold ordered_from. rewrite slice_to_take by lia.
  assert (len (take (Z.to_nat n) (sorted l)) = n) as ->.
  { unfold len in *. rewrite length_take, sorted_perm. lia. }
  by rewrite Z.ltb_irrefl.
Qed.

(** ** The stop-building loop *)

(** The loop appends one stop for each identifier that resolves, in order,
    and nothing for the others. *)
Lemma stops_loop_ids catalog ordered stops :
  JourneyStop.circle_id <$> stops_loop catalog ordered stops
  = (JourneyStop.circle_id <$> stops) ++ filter (resolves catalog) ordered.
Proof.
  revert stops. induction ordered as [|cid rest IH]; intros stops.
  - simpl. by rewrite filter_nil, app_nil_r.
  - simpl. destruct (find_circle catalog cid) as [circle|] eqn:E.
    + rewrite IH, fmap_app, <-app_assoc. simpl.
      rewrite filter_cons_True; [done | ]. unfold resolves. by rewrite E.
    + rewrite IH. rewrite filter_cons_False; [done | ].
      unfold resolves. rewrite E. by intros [? ?].
Qed.

Lemma stops_loop_all_resolve catalog ordered :
  Forall (resolves catalog) ordered →
  JourneyStop.circle_id <$> stops_loop catalog ordered [] = ordered.
Proof.
  intros Hall. rewrite stops_loop_ids. simpl.
  induction Hall as [|cid rest Hcid _ IH]; [done | ].
  rewrite filter_cons_True by done. by rewrite IH.
Qed.

(** ** Facts about the tables and the catalog *)

Lemma catalog_ids : Circle.id <$> CIRCLES = [1; 2; 3; 4; 5; 6; 7; 8; 9].
Proof. reflexivity. Qed.

Lemma CIRCLES_resolve cid : in_catalog_range cid → resolves CIRCLES cid.
Proof.
  intros Hr. unfold in_catalog_range in Hr.
  assert (cid ∈ [1; 2; 3; 4; 5; 6; 7; 8; 9]) as Hc.
  { rewrite !elem_of_cons. lia. }
  rewrite !elem_of_cons in Hc. unfold resolves.
  destruct Hc as [->|[->|[->|[->|[->|[->|[->|[->|[->|Hc]]]]]]]]];
    [by eexists .. | by apply elem_of_nil in Hc].
Qed.

Lemma mood_ids_in_range :
  Forall (Forall in_catalog_range) ([1; 2; 3] :: mood_entries.*2).
Proof. unfold in_catalog_range. repeat constructor; lia. Qed.

Lemma interest_ids_in_range :
  Forall (Forall in_catalog_range) ([4; 5] :: interest_entries.*2).
Proof. unfold in_catalog_range. repeat constructor; lia. Qed.

Lemma PAD_ORDER_in_range : Forall in_catalog_range PAD_ORDER.
Proof. unfold in_catalog_range. repeat constructor; lia. Qed.

Lemma base_of_in_range req x : x ∈ base_of req → in_catalog_range x.
Proof.
  unfold base_of. rewrite elem_of_union, !elem_of_list_to_set.
  intros [Hx | Hx].
  - pose proof (dict_get_cases mood_entries
      (lower (JourneyRequest.mood req)) [1; 2; 3]) as Hl.
    eapply Forall_forall in Hl; [ | apply mood_ids_in_range].
    eapply Forall_forall in Hl; done.
  - pose proof (dict_get_cases interest_entries
      (lower (JourneyRequest.interest req)) [4; 5]) as Hl.
    eapply Forall_forall in Hl; [ | apply interest_ids_in_range].
    eapply Forall_forall in Hl; done.
Qed.

Lemma length_of_range req : 3 ≤ length_of req ≤ 7.
Proof. unfold length_of. lia. Qed.

Lemma length_of_clamp req :
  length_of req = clamp (2 + JourneyRequest.intensity req / 2) 3 7.
Proof.
  unfold length_of, clamp.
  repeat match goal with |- context [?a <? ?b] =>
    destruct (Z.ltb_spec a b) end; lia.
Qed.

(** ** [build_journey] *)

Lemma ordered_of_in_range req : Forall in_catalog_range (ordered_of req).
Proof.
  apply Forall_forall. intros x Hx.
  apply ordered_from_elem in Hx as [Hx | Hx].
  - apply elem_of_elements in Hx. by eapply base_of_in_range.
  - by eapply Forall_forall in Hx; [ | apply PAD_ORDER_in_range].
Qed.

Lemma ordered_of_NoDup req : NoDup (ordered_of req).
Proof. apply ordered_from_NoDup, NoDup_elements. Qed.

Lemma ordered_of_len req : len (ordered_of req) = length_of req.
Proof. apply ordered_from_len. pose proof (length_of_range req). lia. Qed.

Lemma stop_ids_build_journey req :
  stop_ids (build_journey req) = ordered_of req.
Proof.
  unfold stop_ids, build_journey, build_journey_in. simpl.
  apply stops_loop_all_resolve.
  eapply Forall_impl; [apply ordered_of_in_range | apply CIRCLES_resolve].
Qed.

Lemma path_len_build_journey req :
  len (JourneyResponse.path (build_journey req)) = length_of req.
Proof.
  rewrite <-ordered_of_len, <-stop_ids_build_journey.
  unfold stop_ids, len. by rewrite length_fmap.
Qed.

Lemma find_circle_id catalog cid c :
  find_circle catalog cid = Some c → Circle.id c = cid.
Proof.
  unfold find_circle. intros Hf. apply find_some in Hf as [_ Hc]. lia.
Qed.

(** ** The handlers and the globals *)

Lemma handle_globals g c : (handle g c).1 = g.
Proof.
  destruct c; simpl; try done.
  unfold post_journey. by destruct (validate body).
Qed.

Lemma serve_globals g calls : serve g calls = g.
Proof.
  unfold serve. revert g. induction calls as [|c calls IH]; intros g.
  - done.
  - simpl. by rewrite handle_globals.
Qed.

(** ** Validation *)



(** ** Sample runs *)

Example lower_mixed_case : lower "SoMbEr" = "somber".
Proof. reflexivity. Qed.

Example journey_curious_literature_1 :
  stop_ids (build_journey (JourneyRequest.mk "curious" "literature" 1))
  = [1; 2; 3].
Proof. by vm_compute. Qed.

Example journey_padded :
  stop_ids (build_journey (JourneyRequest.mk "Somber" "AESTHETICS" 10))
  = [2; 6; 9; 7; 8; 5; 4].
Proof. by vm_compute. Qed.

Example journey_unknown_words :
  stop_ids (build_journey (JourneyRequest.mk "" "cooking" 10))
  = [1; 2; 3; 4; 5; 6; 7].
Proof. by vm_compute. Qed.

Example str_slice_to_characters : str_slice_to "naïve café" 3 = "naï".
Proof. reflexivity. Qed.

Example intensity_11_rejected :
  validate (Object (JourneyBody.mk (Given "curious") (Given "myth") (Given 11)))
  = inl [LessThanEqual "intensity" 10].
Proof. reflexivity. Qed.

Example intensity_absent_is_5 :
  validate (Object (JourneyBody.mk (Given "curious") (Given "myth") Absent))
  = inr (JourneyRequest.mk "curious" "myth" 5).
Proof. reflexivity. Qed.

Example mood_absent_rejected :
  validate (Object (JourneyBody.mk Absent (Given "myth") (Given 0)))
  = inl [Missing "mood"; GreaterThanEqual "intensity" 1].
Proof. reflexivity. Qed.

Example intensity_ill_typed_rejected :
  validate (Object (JourneyBody.mk (Given "curious") (Given "myth") IllTyped))
  = inl [WrongType "intensity"].
Proof. reflexivity. Qed.

Example no_body_rejected : validate NoObject = inl [NotAnObject].
Proof. reflexivity. Qed.

(** * The claims *)

(** C1: for every valid request (intensity between 1 and 10) the number
    of stops that [build_journey] returns is
    [clamp(2 + floor(intensity / 2), 3, 7)]; with intensity 1 it is exactly
    3 and with intensity 10 exactly 7, whatever the mood and interest. *)
Theorem C1_stop_count (mood interest : string) (intensity : Z) :
  1 ≤ intensity ≤ 10 →
  len (JourneyResponse.path
         (build_journey (JourneyRequest.mk mood interest intensity)))
  = clamp (2 + intensity / 2) 3 7
  ∧ len (JourneyResponse.path
           (build_journey (JourneyRequest.mk mood interest 1))) = 3
  ∧ len (JourneyResponse.path
           (build_journey (JourneyRequest.mk mood interest 10))) = 7.
Proof.
  intros _. rewrite !path_len_build_journey. split_and!.
  - apply length_of_clamp.
  - reflexivity.
  - reflexivity.
Qed.

Lemma C1_stop_count_witness :
  len (JourneyResponse.path
         (build_journey (JourneyRequest.mk "Reflective" "myth" 6)))
  = clamp (2 + 6 / 2) 3 7
  ∧ len (JourneyResponse.path
           (build_journey (JourneyRequest.mk "Reflective" "myth" 1))) = 3
  ∧ len (JourneyResponse.path
           (build_journey (JourneyRequest.mk "Reflective" "myth" 10))) = 7.
Proof. apply (C1_stop_count "Reflective" "myth" 6). lia. Defined.

(** C2: for every valid request, every stop of the response has a
    [circle_id] between 1 and 9, and no two stops share a [circle_id]. *)
Theorem C2_stop_ids_in_range_and_distinct (req : JourneyRequest.t) :
  valid req →
  Forall (λ s, 1 ≤ JourneyStop.circle_id s ≤ 9)
    (JourneyResponse.path (build_journey req))
  ∧ NoDup (stop_ids (build_journey req)).
Proof.
  intros _. split.
  - apply (Forall_fmap JourneyStop.circle_id (λ c, 1 ≤ c ≤ 9)).
    fold (stop_ids (build_journey req)). rewrite stop_ids_build_journey.
    apply ordered_of_in_range.
  - rewrite stop_ids_build_journey. apply ordered_of_NoDup.
Qed.

Lemma C2_stop_ids_in_range_and_distinct_witness :
  Forall (λ s, 1 ≤ JourneyStop.circle_id s ≤ 9)
    (JourneyResponse.path
       (build_journey (JourneyRequest.mk "somber" "unknown" 9)))
  ∧ NoDup (stop_ids (build_journey (JourneyRequest.mk "somber" "unknown" 9))).
Proof.
  apply (C2_stop_ids_in_range_and_distinct
           (JourneyRequest.mk "somber" "unknown" 9)).
  unfold valid. simpl. lia.
Defined.

(** C3: whenever the sorted union of the mood and interest identifiers is
    shorter than the target length, the final path is that sorted union
    followed by the identifiers it lacks, taken in the priority order
    6, 7, 8, 9, 5, 4, 3, 2, 1, as many as are needed to reach the target
    length (or all of them, if the priority list runs out first); the
    stops of the response follow that path. *)
Theorem C3_padding_in_priority_order (req : JourneyRequest.t) :
  len (sorted_union req) < length_of req →
  ordered_of req
  = sorted_union req
    ++ take (Z.to_nat (length_of req - len (sorted_union req)))
         (missing_from [6; 7; 8; 9; 5; 4; 3; 2; 1] (sorted_union req))
  ∧ stop_ids (build_journey req) = ordered_of req.
Proof.
  intros Hlt. split; [ | apply stop_ids_build_journey].
  unfold sorted_union, ordered_of in *.
  assert (len (sorted (elements (base_of req)))
          = len (elements (base_of req))) as Hlen.
  { unfold len. by rewrite sorted_perm. }
  rewrite Hlen in *. by apply ordered_from_short.
Qed.

Lemma C3_padding_in_priority_order_witness :
  ordered_of (JourneyRequest.mk "somber" "aesthetics" 10)
  = sorted_union (JourneyRequest.mk "somber" "aesthetics" 10)
    ++ take (Z.to_nat
               (length_of (JourneyRequest.mk "somber" "aesthetics" 10)
                - len (sorted_union
                         (JourneyRequest.mk "somber" "aesthetics" 10))))
         (missing_from [6; 7; 8; 9; 5; 4; 3; 2; 1]
            (sorted_union (JourneyRequest.mk "somber" "aesthetics" 10)))
  ∧ stop_ids (build_journey (JourneyRequest.mk "somber" "aesthetics" 10))
    = ordered_of (JourneyRequest.mk "somber" "aesthetics" 10).
Proof.
  apply (C3_padding_in_priority_order
           (JourneyRequest.mk "somber" "aesthetics" 10)).
  vm_compute. reflexivity.
Defined.

(** C4: for mood "somber", interest "morality" and intensity 5,
    [build_journey] produces exactly 4 stops, for the circles 1, 4, 6 and
    9 in that order. *)
Theorem C4_somber_morality_5 :
  stop_ids (build_journey (JourneyRequest.mk "somber" "morality" 5))
  = [1; 4; 6; 9]
  ∧ length (JourneyResponse.path
              (build_journey (JourneyRequest.mk "somber" "morality" 5)))
    = 4%nat
  ∧ length_of (JourneyRequest.mk "somber" "morality" 5) = 4
  ∧ base_of (JourneyRequest.mk "somber" "morality" 5)
    = list_to_set [1; 4; 6; 9].
Proof.
  split_and!; [by vm_compute .. | ].
  apply set_eq. intros x. unfold base_of.
  rewrite elem_of_union, !elem_of_list_to_set.
  change (dict_get mood_map _ _) with [6; 9].
  change (dict_get interest_map _ _) with [1; 4; 9].
  rewrite !elem_of_cons, !elem_of_nil. lia.
Qed.

(** C5: when the lower-cased mood is none of the four known moods and the
    lower-cased interest is none of the five known interests, the base set
    is the union of the two fallbacks [1, 2, 3] and [4, 5], that is
    exactly {1, 2, 3, 4, 5}. *)
Theorem C5_unknown_mood_and_interest (req : JourneyRequest.t) :
  lower (JourneyRequest.mood req) ∉ known_moods →
  lower (JourneyRequest.interest req) ∉ known_interests →
  base_of req = list_to_set [1; 2; 3] ∪ list_to_set [4; 5]
  ∧ base_of req = list_to_set [1; 2; 3; 4; 5]
  ∧ ∀ x, x ∈ base_of req ↔ 1 ≤ x ≤ 5.
Proof.
  intros Hm Hi.
  assert (base_of req = list_to_set [1; 2; 3] ∪ list_to_set [4; 5]) as ->.
  { unfold base_of, mood_map, interest_map.
    by rewrite !dict_get_unknown. }
  split_and!; [done | apply set_eq | ]; intros x;
    rewrite elem_of_union, !elem_of_list_to_set, !elem_of_cons, !elem_of_nil;
    lia.
Qed.

Lemma C5_unknown_mood_and_interest_witness :
  base_of (JourneyRequest.mk "Joyful" "cooking" 5)
  = list_to_set [1; 2; 3] ∪ list_to_set [4; 5]
  ∧ base_of (JourneyRequest.mk "Joyful" "cooking" 5)
    = list_to_set [1; 2; 3; 4; 5]
  ∧ ∀ x, x ∈ base_of (JourneyRequest.mk "Joyful" "cooking" 5) ↔ 1 ≤ x ≤ 5.
Proof.
  apply (C5_unknown_mood_and_interest (JourneyRequest.mk "Joyful" "cooking" 5)).
  - compute_done.
  - compute_done.
Defined.



(** C7: [get_circles] returns, on every call, whatever calls were served
    before, the catalog itself: exactly 9 circles, in definition order,
    whose identifiers are 1, ..., 9 with no duplicate; it has no error
    reply and leaves the globals as they were. *)
Theorem C7_get_circles (calls : list Call) :
  get_circles (serve startup calls)
  = (serve startup calls, CircleList CIRCLES)
  ∧ length CIRCLES = 9%nat
  ∧ Circle.id <$> CIRCLES = [1; 2; 3; 4; 5; 6; 7; 8; 9]
  ∧ NoDup (Circle.id <$> CIRCLES)
  ∧ ∀ x, x ∈ (Circle.id <$> CIRCLES) ↔ 1 ≤ x ≤ 9.
Proof.
  rewrite serve_globals. split_and!.
  - reflexivity.
  - reflexivity.
  - apply catalog_ids.
  - rewrite catalog_ids. compute_done.
  - intros x. rewrite catalog_ids, !elem_of_cons, elem_of_nil. lia.
Qed.



(** C9: [build_journey] is deterministic.  Two invocations with the same
    mood, interest and intensity give the same response, whatever calls
    the application served before each of them and in whatever order the
    base set hands out its elements; the title is always
    "A Personal Descent" and the note is always the same closing note. *)
Theorem C9_deterministic (calls1 calls2 : list Call)
    (req1 req2 : JourneyRequest.t) :
  JourneyRequest.mood req1 = JourneyRequest.mood req2 →
  JourneyRequest.interest req1 = JourneyRequest.interest req2 →
  JourneyRequest.intensity req1 = JourneyRequest.intensity req2 →
  build_journey_in (circles (serve startup calls1)) req1
  = build_journey_in (circles (serve startup calls2)) req2
  ∧ JourneyResponse.title
      (build_journey_in (circles (serve startup calls1)) req1)
    = "A Personal Descent"
  ∧ JourneyResponse.note
      (build_journey_in (circles (serve startup calls1)) req1)
    = "Your path is a reflection, not a sentence. Carry the insight, not the weight."
  ∧ ∀ base_list, base_list ≡ₚ elements (base_of req1) →
      stops_loop CIRCLES (ordered_from base_list (length_of req1)) []
      = JourneyResponse.path
          (build_journey_in (circles (serve startup calls2)) req2).
Proof.
  intros Hm Hi Hn. rewrite !serve_globals.
  assert (req1 = req2) as <-.
  { destruct req1, req2; simpl in *; congruence. }
  split_and!; try reflexivity.
  intros base_list Hp. simpl.
  by rewrite (ordered_from_order_irrelevant _ _ _ Hp).
Qed.

Lemma C9_deterministic_witness :
  build_journey_in (circles (serve startup [GetCircles]))
    (JourneyRequest.mk "curious" "literature" 1)
  = build_journey_in (circles (serve startup [GetRoot; GetHello]))
      (JourneyRequest.mk "curious" "literature" 1)
  ∧ JourneyResponse.title
      (build_journey_in (circles (serve startup [GetCircles]))
         (JourneyRequest.mk "curious" "literature" 1))
    = "A Personal Descent"
  ∧ JourneyResponse.note
      (build_journey_in (circles (serve startup [GetCircles]))
         (JourneyRequest.mk "curious" "literature" 1))
    = "Your path is a reflection, not a sentence. Carry the insight, not the weight."
  ∧ ∀ base_list,
      base_list ≡ₚ elements
                    (base_of (JourneyRequest.mk "curious" "literature" 1)) →
      stops_loop CIRCLES
        (ordered_from base_list
           (length_of (JourneyRequest.mk "curious" "literature" 1))) []
      = JourneyResponse.path
          (build_journey_in (circles (serve startup [GetRoot; GetHello]))
             (JourneyRequest.mk "curious" "literature" 1)).
Proof.
  apply (C9_deterministic [GetCircles] [GetRoot; GetHello]
           (JourneyRequest.mk "curious" "literature" 1)
           (JourneyRequest.mk "curious" "literature" 1));
    reflexivity.
Defined.

(** C10: for a fixed mood and interest, the number of stops does not
    decrease when the intensity grows within 1..10. *)
Theorem C10_stop_count_monotone (mood interest : string) (i j : Z) :
  1 ≤ i → i ≤ j → j ≤ 10 →
  len (JourneyResponse.path
         (build_journey (JourneyRequest.mk mood interest i)))
  ≤ len (JourneyResponse.path
           (build_journey (JourneyRequest.mk mood interest j))).
Proof.
  intros _ Hij _. rewrite !path_len_build_journey. unfold length_of. simpl.
  pose proof (Z.div_le_mono i j 2 ltac:(lia) Hij). lia.
Qed.

Lemma C10_stop_count_monotone_witness :
  len (JourneyResponse.path
         (build_journey (JourneyRequest.mk "somber" "aesthetics" 3)))
  ≤ len (JourneyResponse.path
           (build_journey (JourneyRequest.mk "somber" "aesthetics" 8))).
Proof.
  apply (C10_stop_count_monotone "somber" "aesthetics" 3 8); lia.
Defined.

(** * Further properties of the code *)

(** ** Lower-casing *)

Lemma lower_char_idemp a : lower_char (lower_char a) = lower_char a.
Proof. destruct a as [[] [] [] [] [] [] [] []]; reflexivity. Qed.

Lemma lower_idemp s : lower (lower s) = lower s.
Proof.
  induction s as [|a s IH]; [done | ].
  simpl. by rewrite lower_char_idemp, IH.
Qed.

(** ** More on the stop loop *)

Lemma stops_loop_acc catalog ordered stops :
  stops_loop catalog ordered stops = stops ++ stops_loop catalog ordered [].
Proof.
  revert stops. induction ordered as [|cid rest IH]; intros stops.
  - simpl. by rewrite app_nil_r.
  - simpl. destruct (find_circle catalog cid) as [circle|].
    + rewrite IH. rewrite (IH [_]). by rewrite <-app_assoc.
    + apply IH.
Qed.

Lemma stops_loop_app catalog l1 l2 :
  stops_loop catalog (l1 ++ l2) []
  = stops_loop catalog l1 [] ++ stops_loop catalog l2 [].
Proof.
  induction l1 as [|cid rest IH]; [done | ].
  simpl. destruct (find_circle catalog cid) as [circle|]; [ | done].
  rewrite stops_loop_acc, (stops_loop_acc _ rest [_]), IH.
  by rewrite <-app_assoc.
Qed.



(** ** More on truncation and padding *)

Lemma sorted_union_len req :
  len (sorted_union req) = len (elements (base_of req)).
Proof. unfold sorted_union, len. by rewrite sorted_perm. Qed.

Lemma sorted_union_elem req x : x ∈ sorted_union req ↔ x ∈ base_of req.
Proof. unfold sorted_union. by rewrite sorted_perm, elem_of_elements. Qed.

Lemma sorted_union_ascending req : StronglySorted Z.lt (sorted_union req).
Proof.
  unfold sorted_union.
  assert (NoDup (sorted (elements (base_of req)))) as Hnd.
  { rewrite sorted_perm. apply NoDup_elements. }
  assert (StronglySorted Z.le (sorted (elements (base_of req)))) as Hs.
  { apply StronglySorted_merge_sort; apply _. }
  induction Hs as [|x l Hl IH Hx]; [constructor | ].
  apply NoDup_cons in Hnd as [Hxl Hnd]. constructor; [by apply IH | ].
  apply Forall_forall. intros y Hy.
  assert (x ≤ y) by (by eapply Forall_forall in Hx).
  assert (x ≠ y) by (intros ->; done). lia.
Qed.

Lemma ordered_from_prefix l n1 n2 :
  0 ≤ n1 ≤ n2 → ordered_from l n1 `prefix_of` ordered_from l n2.
Proof.
  intros Hn. assert (len (sorted l) = len l) as Hlen.
  { unfold len. by rewrite sorted_perm. }
  destruct (Z.le_gt_cases n2 (len l)) as [H2 | H2].
  - rewrite !ordered_from_enough by lia.
    replace (Z.to_nat n2) with (Z.to_nat n1 + Z.to_nat (n2 - n1))%nat by lia.
    rewrite <-take_take_drop. by eexists.
  - rewrite (ordered_from_short l n2) by lia.
    destruct (Z.le_gt_cases n1 (len l)) as [H1 | H1].
    + rewrite ordered_from_enough by lia.
      apply prefix_app_r, prefix_take.
    + rewrite ordered_from_short by lia. apply prefix_app.
      replace (Z.to_nat (n2 - len l))
        with (Z.to_nat (n1 - len l) + Z.to_nat (n2 - n1))%nat by lia.
      rewrite <-take_take_drop. by eexists.
Qed.

Lemma length_of_mono i j mood interest :
  i ≤ j →
  length_of (JourneyRequest.mk mood interest i)
  ≤ length_of (JourneyRequest.mk mood interest j).
Proof.
  intros Hij. unfold length_of. simpl.
  pose proof (Z.div_le_mono i j 2 ltac:(lia) Hij). lia.
Qed.

(** The thirty unions the two tables and their fallbacks can give. *)
Lemma base_size_cases :
  Forall (λ ml, Forall (λ il,
    3 ≤ len (elements (list_to_set ml ∪ list_to_set il : gset Z)) ≤ 7)
      ([4; 5] :: interest_entries.*2))
    ([1; 2; 3] :: mood_entries.*2).
Proof. unfold len. repeat constructor; by vm_compute. Qed.

Lemma base_of_size req : 3 ≤ len (elements (base_of req)) ≤ 7.
Proof.
  unfold base_of.
  pose proof (dict_get_cases mood_entries
    (lower (JourneyRequest.mood req)) [1; 2; 3]) as Hm.
  pose proof (dict_get_cases interest_entries
    (lower (JourneyRequest.interest req)) [4; 5]) as Hi.
  pose proof base_size_cases as Hall.
  eapply Forall_forall in Hall; [ | exact Hm].
  eapply Forall_forall in Hall; [ | exact Hi]. exact Hall.
Qed.

(** ** [build_journey]: what the stops hold and how the path grows *)


(** X2: mood and interest are matched without regard to case: for a mood
    and an interest written in ASCII characters, the request and the same
    request with both words lower-cased get the same response. *)
Theorem build_journey_ignores_case (mood interest : string) (intensity : Z) :
  isascii mood = true →
  isascii interest = true →
  build_journey (JourneyRequest.mk mood interest intensity)
  = build_journey
      (JourneyRequest.mk (lower mood) (lower interest) intensity).
Proof.
  intros _ _.
  unfold build_journey, build_journey_in, base_of, length_of. simpl.
  by rewrite !lower_idemp.
Qed.

Lemma build_journey_ignores_case_witness :
  build_journey (JourneyRequest.mk "SoMbEr" "MORALITY" 5)
  = build_journey
      (JourneyRequest.mk (lower "SoMbEr") (lower "MORALITY") 5).
Proof.
  apply (build_journey_ignores_case "SoMbEr" "MORALITY" 5); reflexivity.
Defined.

(** X3: the intensity counts only through [intensity // 2], cut at both
    ends: two intensities with the same half, or both at most 3, or both
    at least 10, give the same response. *)
Theorem build_journey_same_half (mood interest : string) (a b : Z) :
  a / 2 = b / 2 ∨ (a ≤ 3 ∧ b ≤ 3) ∨ (10 ≤ a ∧ 10 ≤ b) →
  build_journey (JourneyRequest.mk mood interest a)
  = build_journey (JourneyRequest.mk mood interest b).
Proof.
  intros Hab.
  assert (length_of (JourneyRequest.mk mood interest a)
          = length_of (JourneyRequest.mk mood interest b)) as Hlen.
  { unfold length_of. simpl.
    pose proof (Z.div_mod a 2 ltac:(lia)).
    pose proof (Z.mod_pos_bound a 2 ltac:(lia)).
    pose proof (Z.div_mod b 2 ltac:(lia)).
    pose proof (Z.mod_pos_bound b 2 ltac:(lia)). lia. }
  unfold build_journey, build_journey_in. by rewrite Hlen.
Qed.

Lemma build_journey_same_half_witness :
  build_journey (JourneyRequest.mk "myth" "myth" 6)
  = build_journey (JourneyRequest.mk "myth" "myth" 7).
Proof.
  apply (build_journey_same_half "myth" "myth" 6 7). left. reflexivity.
Defined.

(** X4: raising the intensity only adds stops at the end: for [i <= j] the
    path for intensity [i] is a prefix of the path for intensity [j], the
    mood and interest being the same. *)
Theorem path_grows_by_appending (mood interest : string) (i j : Z) :
  i ≤ j →
  JourneyResponse.path (build_journey (JourneyRequest.mk mood interest i))
  `prefix_of`
  JourneyResponse.path (build_journey (JourneyRequest.mk mood interest j)).
Proof.
  intros Hij. unfold build_journey, build_journey_in. simpl.
  change (base_of (JourneyRequest.mk mood interest j))
    with (base_of (JourneyRequest.mk mood interest i)).
  destruct (ordered_from_prefix
              (elements (base_of (JourneyRequest.mk mood interest i)))
              (length_of (JourneyRequest.mk mood interest i))
              (length_of (JourneyRequest.mk mood interest j))) as [k ->].
  - pose proof (length_of_range (JourneyRequest.mk mood interest i)).
    pose proof (length_of_mono i j mood interest Hij). lia.
  - rewrite stops_loop_app. by eexists.
Qed.

Lemma path_grows_by_appending_witness :
  JourneyResponse.path
    (build_journey (JourneyRequest.mk "somber" "aesthetics" 2))
  `prefix_of`
  JourneyResponse.path
    (build_journey (JourneyRequest.mk "somber" "aesthetics" 9)).
Proof.
  apply (path_grows_by_appending "somber" "aesthetics" 2 9). lia.
Defined.

(** X5: when the union of the mood and interest identifiers has at least
    as many elements as the target length, nothing is padded: the stops
    are the smallest identifiers of the union, as many as the target
    length, in strictly ascending order, and every identifier of the
    union that is left out is larger than every one that is kept. *)
Theorem no_padding_when_union_is_large (req : JourneyRequest.t) :
  length_of req ≤ len (sorted_union req) →
  stop_ids (build_journey req)
  = take (Z.to_nat (length_of req)) (sorted_union req)
  ∧ StronglySorted Z.lt (stop_ids (build_journey req))
  ∧ (∀ x, x ∈ stop_ids (build_journey req) → x ∈ base_of req)
  ∧ ∀ x y, x ∈ stop_ids (build_journey req) → y ∈ base_of req →
      y ∉ stop_ids (build_journey req) → x < y.
Proof.
  intros Hle. pose proof (length_of_range req) as Hr.
  rewrite stop_ids_build_journey. unfold ordered_of.
  rewrite sorted_union_len in Hle. rewrite ordered_from_enough by lia.
  fold (sorted_union req).
  pose proof (sorted_union_ascending req) as Hs.
  rewrite <-(take_drop (Z.to_nat (length_of req)) (sorted_union req)) in Hs.
  apply StronglySorted_app in Hs as (Hcross & Htake & _).
  split_and!; [done | done | | ].
  - intros x Hx. apply sorted_union_elem.
    by eapply subseteq_take.
  - intros x y Hx Hy Hny. apply Hcross; [done | ].
    apply sorted_union_elem in Hy.
    rewrite <-(take_drop (Z.to_nat (length_of req)) (sorted_union req)) in Hy.
    apply elem_of_app in Hy as [Hy | Hy]; done.
Qed.

Lemma no_padding_when_union_is_large_witness :
  stop_ids (build_journey (JourneyRequest.mk "curious" "myth" 4))
  = take (Z.to_nat (length_of (JourneyRequest.mk "curious" "myth" 4)))
      (sorted_union (JourneyRequest.mk "curious" "myth" 4))
  ∧ StronglySorted Z.lt
      (stop_ids (build_journey (JourneyRequest.mk "curious" "myth" 4)))
  ∧ (∀ x, x ∈ stop_ids (build_journey (JourneyRequest.mk "curious" "myth" 4))
        → x ∈ base_of (JourneyRequest.mk "curious" "myth" 4))
  ∧ ∀ x y,
      x ∈ stop_ids (build_journey (JourneyRequest.mk "curious" "myth" 4)) →
      y ∈ base_of (JourneyRequest.mk "curious" "myth" 4) →
      y ∉ stop_ids (build_journey (JourneyRequest.mk "curious" "myth" 4)) →
      x < y.
Proof.
  apply (no_padding_when_union_is_large (JourneyRequest.mk "curious" "myth" 4)).
  vm_compute. discriminate.
Defined.

(** X6: the union of the mood and interest identifiers always has between
    3 and 7 elements, whatever the two words are. *)
Theorem base_has_3_to_7_identifiers (req : JourneyRequest.t) :
  3 ≤ Z.of_nat (size (base_of req)) ≤ 7
  ∧ len (sorted_union req) = Z.of_nat (size (base_of req)).
Proof.
  pose proof (base_of_size req) as Hs. split; [exact Hs | ].
  apply sorted_union_len.
Qed.

(** X7: with an intensity of at most 3 the target length is 3 and no stop
    is a padding stop: the stops are the three smallest identifiers of the
    union, in ascending order. *)
Theorem low_intensity_never_pads (req : JourneyRequest.t) :
  JourneyRequest.intensity req ≤ 3 →
  stop_ids (build_journey req) = take 3 (sorted_union req)
  ∧ ∀ x, x ∈ stop_ids (build_journey req) → x ∈ base_of req.
Proof.
  intros Hi.
  assert (length_of req = 3) as H3.
  { unfold length_of.
    pose proof (Z.div_le_mono _ 3 2 ltac:(lia) Hi) as Hd.
    change (3 / 2) with 1 in Hd. lia. }
  destruct (no_padding_when_union_is_large req) as (Hids & _ & Hsub & _).
  - rewrite sorted_union_len. pose proof (base_of_size req). lia.
  - rewrite H3 in Hids. done.
Qed.

Lemma low_intensity_never_pads_witness :
  stop_ids (build_journey (JourneyRequest.mk "somber" "aesthetics" 3))
  = take 3 (sorted_union (JourneyRequest.mk "somber" "aesthetics" 3))
  ∧ ∀ x,
      x ∈ stop_ids (build_journey (JourneyRequest.mk "somber" "aesthetics" 3))
      → x ∈ base_of (JourneyRequest.mk "somber" "aesthetics" 3).
Proof.
  apply (low_intensity_never_pads (JourneyRequest.mk "somber" "aesthetics" 3)).
  simpl. lia.
Defined.

(** X8: padding never displaces an identifier of the union: either every
    stop comes from the union of the mood and interest identifiers, or
    every identifier of that union has a stop. *)
Theorem padding_only_after_the_union (req : JourneyRequest.t) :
  (∀ x, x ∈ stop_ids (build_journey req) → x ∈ base_of req)
  ∨ (∀ y, y ∈ base_of req → y ∈ stop_ids (build_journey req)).
Proof.
  destruct (Z.le_gt_cases (length_of req) (len (sorted_union req)))
    as [Hle | Hgt].
  - left. by apply no_padding_when_union_is_large.
  - right. intros y Hy. rewrite stop_ids_build_journey. unfold ordered_of.
    rewrite sorted_union_len in Hgt. rewrite ordered_from_short by lia.
    apply elem_of_app. left. by apply sorted_union_elem.
Qed.

(** X9: against any catalog, the stops are the identifiers of the final
    path that the catalog resolves, in the order of the path; the others
    are skipped without an error, so the response has at most the target
    number of stops, and none at all against an empty catalog. *)
Theorem unresolved_identifiers_are_skipped (catalog : list Circle.t)
    (req : JourneyRequest.t) :
  stop_ids (build_journey_in catalog req)
  = filter (λ cid, is_Some (find_circle catalog cid)) (ordered_of req)
  ∧ len (JourneyResponse.path (build_journey_in catalog req))
    ≤ length_of req
  ∧ JourneyResponse.path (build_journey_in [] req) = [].
Proof.
  assert (stop_ids (build_journey_in catalog req)
          = filter (resolves catalog) (ordered_of req)) as Hids.
  { unfold stop_ids, build_journey_in. simpl. by rewrite stops_loop_ids. }
  split_and!.
  - exact Hids.
  - rewrite <-ordered_of_len.
    replace (len (JourneyResponse.path (build_journey_in catalog req)))
      with (len (stop_ids (build_journey_in catalog req)))
      by (unfold stop_ids, len; by rewrite length_fmap).
    rewrite Hids. unfold len.
    pose proof (length_filter (resolves catalog) (ordered_of req)). lia.
  - unfold build_journey_in. simpl.
    induction (ordered_from _ _) as [|cid rest IH]; done.
Qed.

(** X10: in any catalog the lookup finds nothing exactly for the
    identifiers that no circle has, and what it finds for the identifier
    of a circle of the catalog is a circle with that identifier; when the
    identifiers of the catalog are distinct, it is that very circle. *)
Theorem find_circle_lookup (catalog : list Circle.t) :
  (∀ cid, find_circle catalog cid = None ↔ cid ∉ Circle.id <$> catalog)
  ∧ Forall (λ c, ∃ c', find_circle catalog (Circle.id c) = Some c'
                       ∧ Circle.id c' = Circle.id c) catalog
  ∧ (NoDup (Circle.id <$> catalog) →
     Forall (λ c, find_circle catalog (Circle.id c) = Some c) catalog).
Proof.
  assert (∀ cid, find_circle catalog cid = None
                 ↔ cid ∉ Circle.id <$> catalog) as Hnone.
  { intros cid. unfold find_circle.
    induction catalog as [|c0 rest IH]; simpl.
    - split; [intros _; apply not_elem_of_nil | done].
    - destruct (Z.eqb_spec (Circle.id c0) cid) as [Heq | Hne].
      + split; [done | ]. intros Hn. exfalso. apply Hn. rewrite Heq. left.
      + rewrite IH, not_elem_of_cons.
        split; [intros Hr; split; [congruence | done] | by intros [_ Hr]]. }
  split_and!.
  - exact Hnone.
  - apply Forall_forall. intros c Hc.
    destruct (find_circle catalog (Circle.id c)) as [c'|] eqn:E.
    + exists c'. split; [done | by eapply find_circle_id].
    + apply Hnone in E. exfalso. apply E.
      apply list_elem_of_fmap. by exists c.
  - clear Hnone. intros Hnd.
    induction catalog as [|c0 rest IH]; [constructor | ].
    simpl in Hnd. apply NoDup_cons in Hnd as [Hc0 Hnd]. constructor.
    + unfold find_circle. simpl. by rewrite Z.eqb_refl.
    + eapply Forall_impl; [by apply IH | ].
      intros c Hc. simpl in Hc. unfold find_circle in *. simpl.
      destruct (Z.eqb_spec (Circle.id c0) (Circle.id c)) as [Heq | Hne];
        [ | done].
      exfalso. apply Hc0. rewrite Heq.
      apply find_some in Hc as [Hin _].
      apply list_elem_of_fmap. exists c. split; [done | ].
      by apply list_elem_of_In.
Qed.

Lemma find_circle_lookup_witness :
  Forall (λ c, find_circle CIRCLES (Circle.id c) = Some c) CIRCLES.
Proof. apply (find_circle_lookup CIRCLES). compute_done. Defined.

(** ** The diagnostic endpoint *)

Lemma truthy_spec v : truthy v = true ↔ ∃ s, v = Some s ∧ s ≠ EmptyString.
Proof.
  destruct v as [s|]; simpl.
  - destruct (bool_decide_reflect (s = EmptyString)) as [-> | Hs]; simpl.
    + split; [done | ]. by intros (s & [= <-] & Hs).
    + split; [ | done]. intros _. by exists s.
  - split; [done | ]. by intros (s & [=] & _).
Qed.

(** X11: the [database_url] and [database_name] fields of the reply are
    decided by the environment alone: each is "Set" (with its check mark)
    exactly when its variable is set to a non-empty string, and "Not Set"
    otherwise, whatever the import and the database object do.  What the
    database branch wrote into the two fields never reaches the reply. *)
Theorem test_database_reports_environment (w : World) :
  (TestResponse.database_url (test_database w) = Some "✅ Set"
   ↔ ∃ s, environ w !! "DATABASE_URL" = Some s ∧ s ≠ EmptyString)
  ∧ (TestResponse.database_url (test_database w) = Some "❌ Not Set"
     ↔ ¬ ∃ s, environ w !! "DATABASE_URL" = Some s ∧ s ≠ EmptyString)
  ∧ (TestResponse.database_name (test_database w) = Some "✅ Set"
     ↔ ∃ s, environ w !! "DATABASE_NAME" = Some s ∧ s ≠ EmptyString)
  ∧ (TestResponse.database_name (test_database w) = Some "❌ Not Set"
     ↔ ¬ ∃ s, environ w !! "DATABASE_NAME" = Some s ∧ s ≠ EmptyString).
Proof.
  pose proof (truthy_spec (getenv w "DATABASE_URL")) as Hu.
  pose proof (truthy_spec (getenv w "DATABASE_NAME")) as Hn.
  unfold getenv in *.
  assert (TestResponse.database_url (test_database w)
          = Some (if truthy (environ w !! "DATABASE_URL")
                  then "✅ Set" else "❌ Not Set")) as ->.
  { by test_database_cases w. }
  assert (TestResponse.database_name (test_database w)
          = Some (if truthy (environ w !! "DATABASE_NAME")
                  then "✅ Set" else "❌ Not Set")) as ->.
  { by test_database_cases w. }
  rewrite <-Hu, <-Hn.
  destruct (truthy (environ w !! "DATABASE_URL")),
    (truthy (environ w !! "DATABASE_NAME"));
    split_and!; split; first [done | by intros [=] | by intros []].
Qed.

(** X12: the reply lists at most 10 collections; when it lists any, they
    are the first 10 names that [list_collection_names] returned, and the
    reply says that the database is connected and working. *)
Theorem test_database_collections (w : World) :
  (length (TestResponse.collections (test_database w)) ≤ 10)%nat
  ∧ (TestResponse.collections (test_database w) ≠ [] →
     ∃ db names,
       import_db w = inr (Some db)
       ∧ Db.list_collection_names db = inr names
       ∧ TestResponse.collections (test_database w) = take 10 names
       ∧ TestResponse.database (test_database w)
         = "✅ Connected & Working"
       ∧ TestResponse.connection_status (test_database w) = "Connected").
Proof.
  split.
  - test_database_cases w; try lia; rewrite length_take; lia.
  - test_database_cases w; try done; intros _; by eexists _, _.
Qed.

(** X13: the reply says "Connected" exactly when the import gave a
    database object that is not [None] and reading its [name] did not
    raise; a failing [list_collection_names] does not take it back.  In
    every other case it says "Not Connected". *)
Theorem test_database_connection_status (w : World) :
  (TestResponse.connection_status (test_database w) = "Connected"
   ↔ ∃ db, import_db w = inr (Some db) ∧ ∀ e, Db.name db ≠ AttrRaises e)
  ∧ (TestResponse.connection_status (test_database w) = "Connected"
     ∨ TestResponse.connection_status (test_database w) = "Not Connected").
Proof.
  split.
  - test_database_cases w; split;
      first [ done
            | intros _; eexists; split; [reflexivity | by intros e]
            | intros (d & Heq & Hn); simplify_eq; by edestruct Hn ].
  - test_database_cases w; by (left + right).
Qed.

(** X14: every path through [test_database] overwrites the [database]
    field: the reply never carries the initial "Not Available" nor the
    intermediate "Available", and [backend] is always "Running". *)
Theorem test_database_always_concludes (w : World) :
  TestResponse.database (test_database w) ≠ "❌ Not Available"
  ∧ TestResponse.database (test_database w) ≠ "✅ Available"
  ∧ TestResponse.backend (test_database w) = "✅ Running".
Proof. test_database_cases w; split_and!; done. Qed.
